(** * graphviz/lang.py: quoting of DOT identifiers and assembly of attribute lists

    A shallow embedding of [quote], [quote_edge], [a_list] and [attr_list].

    Strings are byte strings ([string], a list of [ascii]): the [str] of
    Python 2, and the code points below 256 of Python 3.  On these the
    class [\d] is exactly [0-9] and [re.IGNORECASE] folds exactly the
    ASCII letters.

    The four compiled patterns of the module are kept as regular
    expressions and run by a matcher (Brzozowski derivatives), so that
    [ID.match], [KEYWORD.match] and [HTML_STRING.match] are computed the
    way the source asks [re] to compute them. *)

From Stdlib Require Import Bool Arith Lia List Ascii String.
From Stdlib Require Import Permutation Sorted OrderedTypeEx.
Import ListNotations.

Local Open Scope string_scope.
Local Open Scope bool_scope.

(** ** Characters *)

Definition dquote : ascii := "034"%char.
Definition backslash : ascii := "092"%char.
Definition newline : ascii := "010"%char.

(** [lo <= c <= hi] on character codes: a range [lo-hi] of a class. *)
Definition in_range (lo hi c : ascii) : bool :=
  Nat.leb (nat_of_ascii lo) (nat_of_ascii c)
  && Nat.leb (nat_of_ascii c) (nat_of_ascii hi).

(** [\d] on byte strings. *)
Definition digit (c : ascii) : bool := in_range "0" "9" c.

(** [[a-zA-Z_]] *)
Definition id_start (c : ascii) : bool :=
  in_range "a" "z" c || in_range "A" "Z" c || Ascii.eqb c "_".

(** [[a-zA-Z0-9_]] *)
Definition id_char (c : ascii) : bool :=
  in_range "a" "z" c || in_range "A" "Z" c || in_range "0" "9" c
  || Ascii.eqb c "_".

(** Case folding of [re.IGNORECASE] on bytes: [A-Z] to [a-z]. *)
Definition lower (c : ascii) : ascii :=
  if in_range "A" "Z" c then ascii_of_nat (nat_of_ascii c + 32) else c.

Fixpoint lower_string (s : string) : string :=
  match s with
  | EmptyString => EmptyString
  | String c s' => String (lower c) (lower_string s')
  end.

Fixpoint forall_chars (p : ascii -> bool) (s : string) : bool :=
  match s with
  | EmptyString => true
  | String c s' => p c && forall_chars p s'
  end.

(** ** Regular expressions, as [re.compile] receives them *)

Module Re.

Inductive pattern : Type :=
| Void : pattern                              (* matches nothing *)
| Eps : pattern                               (* the empty pattern *)
| Class : (ascii -> bool) -> pattern          (* one character of a class *)
| Seq : pattern -> pattern -> pattern         (* r1 r2 *)
| Alt : pattern -> pattern -> pattern         (* r1|r2 *)
| Star : pattern -> pattern.                  (* r* *)

Definition lit (c : ascii) : pattern := Class (Ascii.eqb c).
(** A literal under [re.IGNORECASE]. *)
Definition lit_i (c : ascii) : pattern :=
  Class (fun x => Ascii.eqb (lower x) (lower c)).
(** [.] under [re.DOTALL]: any character, newline included. *)
Definition any : pattern := Class (fun _ => true).
(** [r?] *)
Definition opt (r : pattern) : pattern := Alt r Eps.
(** [r+] *)
Definition plus (r : pattern) : pattern := Seq r (Star r).

(** A word, letter by letter, under [re.IGNORECASE]. *)
Fixpoint word_i (w : string) : pattern :=
  match w with
  | EmptyString => Eps
  | String c w' => Seq (lit_i c) (word_i w')
  end.

Fixpoint nullable (r : pattern) : bool :=
  match r with
  | Void => false
  | Eps => true
  | Class _ => false
  | Seq a b => nullable a && nullable b
  | Alt a b => nullable a || nullable b
  | Star _ => true
  end.

Fixpoint deriv (c : ascii) (r : pattern) : pattern :=
  match r with
  | Void => Void
  | Eps => Void
  | Class p => if p c then Eps else Void
  | Seq a b =>
      if nullable a then Alt (Seq (deriv c a) b) (deriv c b)
      else Seq (deriv c a) b
  | Alt a b => Alt (deriv c a) (deriv c b)
  | Star a => Seq (deriv c a) (Star a)
  end.

(** The whole of [s] is matched by [r]. *)
Fixpoint accepts (r : pattern) (s : string) : bool :=
  match s with
  | EmptyString => nullable r
  | String c s' => accepts (deriv c r) s'
  end.

(** [$] without [re.MULTILINE]: the end of the string, or the place just
    before a newline that is the last character of the string. *)
Definition dollar : pattern := Alt Eps (lit newline).

(** [re.compile(r + '$').match(s)] as a truth value: the match starts at
    the first character and [$] pins its end, so what is asked is whether
    [s] as a whole is [r] followed by what [$] lets through. *)
Definition match_dollar (r : pattern) (s : string) : bool :=
  accepts (Seq r dollar) s.

(** The words matched by a pattern. *)
Inductive lang : pattern -> string -> Prop :=
| lang_eps : lang Eps EmptyString
| lang_class p c : p c = true -> lang (Class p) (String c EmptyString)
| lang_seq a b s t : lang a s -> lang b t -> lang (Seq a b) (s ++ t)
| lang_alt_l a b s : lang a s -> lang (Alt a b) s
| lang_alt_r a b s : lang b s -> lang (Alt a b) s
| lang_star_nil a : lang (Star a) EmptyString
| lang_star_app a s t : lang a s -> lang (Star a) t -> lang (Star a) (s ++ t).

End Re.

(** ** The compiled patterns of lang.py *)

(** The numeral of [ID] without its sign: either [\.\d+], or [\d+] with
    an optional group of [\.] and [\d*]. *)
Definition unsigned : Re.pattern :=
  Re.Alt
    (Re.Seq (Re.lit ".") (Re.plus (Re.Class digit)))
    (Re.Seq (Re.plus (Re.Class digit))
       (Re.opt (Re.Seq (Re.lit ".") (Re.Star (Re.Class digit))))).

(** The pattern [ID] without its final [$]: an alternative of
    [[a-zA-Z_][a-zA-Z0-9_]*] and of an optional [-] followed by
    [unsigned]. *)
Definition ID : Re.pattern :=
  Re.Alt
    (Re.Seq (Re.Class id_start) (Re.Star (Re.Class id_char)))
    (Re.Seq (Re.opt (Re.lit "-")) unsigned).

Definition keywords : list string :=
  ["node"; "edge"; "graph"; "digraph"; "subgraph"; "strict"].

(** [((node)|(edge)|(graph)|(digraph)|(subgraph)|(strict))] under
    [re.IGNORECASE], the pattern [KEYWORD] without its final [$]. *)
Definition KEYWORD : Re.pattern :=
  fold_right (fun w r => Re.Alt (Re.word_i w) r) Re.Void keywords.

(** [<.*>] under [re.DOTALL], the pattern [HTML_STRING] without its
    final [$]. *)
Definition HTML_STRING : Re.pattern :=
  Re.Seq (Re.lit "<") (Re.Seq (Re.Star Re.any) (Re.lit ">")).

(** ** quote *)

(** [str.replace(old, new)] for a one-character [old]. *)
Fixpoint replace (old : ascii) (new : string) (s : string) : string :=
  match s with
  | EmptyString => EmptyString
  | String c s' =>
      (if Ascii.eqb c old then new else String c EmptyString)
      ++ replace old new s'
  end.

Definition valid_id : string -> bool := Re.match_dollar ID.
Definition dot_keyword : string -> bool := Re.match_dollar KEYWORD.
Definition html : string -> bool := Re.match_dollar HTML_STRING.

(** [identifier.replace(dq, bs + dq)], with [dq] the double quote and
    [bs] the backslash. *)
Definition escaped (identifier : string) : string :=
  replace dquote (String backslash (String dquote EmptyString)) identifier.

(** A string between two double quotes: the format with one double
    quote before and one after its [%s]. *)
Definition in_quotes (s : string) : string :=
  String dquote (s ++ String dquote EmptyString).

(** The quoted form: the escaped identifier between two double quotes. *)
Definition quoted (identifier : string) : string :=
  in_quotes (escaped identifier).

Definition quote (identifier : string) : string :=
  if html identifier then identifier
  else if negb (valid_id identifier) || dot_keyword identifier
       then quoted identifier
       else identifier.

(** ** quote_edge *)

(** [s.partition(':')]: the part before the first separator and the part
    after it; the middle component of Python's triple is left out, both
    calls of the source discard it.  With no separator in [s] the result
    is [s] and the empty string. *)
Fixpoint partition (sep : ascii) (s : string) : string * string :=
  match s with
  | EmptyString => (EmptyString, EmptyString)
  | String c s' =>
      if Ascii.eqb c sep then (EmptyString, s')
      else let (before, after) := partition sep s' in (String c before, after)
  end.

(** [sep.join(parts)] *)
Fixpoint join (sep : string) (parts : list string) : string :=
  match parts with
  | [] => EmptyString
  | [p] => p
  | p :: ps => p ++ sep ++ join sep ps
  end.

(** Truth value of a string: [if rest:]. *)
Definition nonempty (s : string) : bool :=
  match s with EmptyString => false | String _ _ => true end.

Definition quote_edge (identifier : string) : string :=
  let (node, rest) := partition ":" identifier in
  let parts := [quote node] in
  let parts :=
    if nonempty rest then
      let (port, compass) := partition ":" rest in
      let parts := (parts ++ [quote port])%list in
      if nonempty compass then (parts ++ [compass])%list else parts
    else parts in
  join ":" parts.

(** ** a_list and attr_list *)

(** A value of an attribute: a string, or [None]. *)
Definition value : Type := option string.
Definition item : Type := (string * value)%type.

(** A [dict] with string keys, as the list of its items in iteration
    order.  The keys of a dict are pairwise distinct ([NoDup] of [keys]);
    the order is whatever the interpreter iterates in. *)
Definition dict : Type := list item.
Definition keys (d : list item) : list string := map fst d.

(** The [attributes] argument: an object with an [items] attribute, or
    any other iterable of pairs. *)
Inductive attributes_arg : Type :=
| Mapping : dict -> attributes_arg
| Pairs : list item -> attributes_arg.

Fixpoint insert_item (x : item) (l : list item) : list item :=
  match l with
  | [] => [x]
  | y :: l' =>
      if String.leb (fst x) (fst y) then x :: l else y :: insert_item x l'
  end.

Definition sort_items (l : list item) : list item :=
  fold_right insert_item [] l.

(** Modelled from the spec: [tools.mapping_items], imported by lang.py
    from a module that is not among the sources.  The spec has the items
    of an unordered mapping sorted by key before emission (sections 3
    and 4.3); keys are compared as byte strings, character by character. *)
Definition mapping_items (mapping : dict) : list item := sort_items mapping.

(** [['%s=%s' % (quote(k), quote(v)) for k, v in items if v is not None]] *)
Fixpoint format_items (items : list item) : list string :=
  match items with
  | [] => []
  | (k, Some v) :: rest => (quote k ++ "=" ++ quote v) :: format_items rest
  | (_, None) :: rest => format_items rest
  end.

(** Truth value of a container: [if kwargs:]. *)
Definition nonempty_list {A : Type} (l : list A) : bool :=
  match l with [] => false | _ :: _ => true end.

Definition a_list (label : option string) (kwargs : option dict)
    (attributes : option attributes_arg) : string :=
  let result :=
    match label with
    | Some l => ["label=" ++ quote l]
    | None => []
    end in
  let result :=
    match kwargs with
    | Some kw =>
        if nonempty_list kw
        then (result ++ format_items (mapping_items kw))%list
        else result
    | None => result
    end in
  let result :=
    match attributes with
    | Some (Mapping d) =>
        if nonempty_list d
        then (result ++ format_items (mapping_items d))%list
        else result
    | Some (Pairs l) =>
        if nonempty_list l
        then (result ++ format_items l)%list
        else result
    | None => result
    end in
  join " " result.

Definition attr_list (label : option string) (kwargs : option dict)
    (attributes : option attributes_arg) : string :=
  let content := a_list label kwargs attributes in
  if negb (nonempty content) then EmptyString
  else " [" ++ content ++ "]".

(** ** The grammar of the target language, in the words of the spec *)

Definition first_char (s : string) : option ascii :=
  match s with EmptyString => None | String c _ => Some c end.

Definition tail (s : string) : string :=
  match s with EmptyString => EmptyString | String _ s' => s' end.

Fixpoint last_char (s : string) : option ascii :=
  match s with
  | EmptyString => None
  | String c EmptyString => Some c
  | String _ s' => last_char s'
  end.

(** A letter or underscore, then letters, digits and underscores. *)
Definition bare_identifier (s : string) : bool :=
  match s with
  | EmptyString => false
  | String c s' => id_start c && forall_chars id_char s'
  end.

(** The longest prefix of digits, and what follows it. *)
Fixpoint span_digits (s : string) : string * string :=
  match s with
  | EmptyString => (EmptyString, EmptyString)
  | String c s' =>
      if digit c
      then let (ds, rest) := span_digits s' in (String c ds, rest)
      else (EmptyString, s)
  end.

(** Digits with an optional fractional part, or a dot and digits. *)
Definition unsigned_numeral (s : string) : bool :=
  if match first_char s with Some c => Ascii.eqb c "." | None => false end
  then nonempty (tail s) && forall_chars digit (tail s)
  else
      let (ds, rest) := span_digits s in
      nonempty ds
      && match rest with
         | EmptyString => true
         | String c frac => Ascii.eqb c "." && forall_chars digit frac
         end.

(** A numeral: an optional minus sign, then an unsigned numeral. *)
Definition numeral (s : string) : bool :=
  match s with
  | String c s' => if Ascii.eqb c "-" then unsigned_numeral s'
                   else unsigned_numeral s
  | EmptyString => false
  end.

(** One of the reserved words, whatever the case of its letters. *)
Definition reserved (s : string) : bool :=
  existsb (String.eqb (lower_string s)) keywords.

(** Starts with [<] and ends with [>]. *)
Definition html_like (s : string) : bool :=
  match first_char s, last_char s with
  | Some a, Some b => Ascii.eqb a "<" && Ascii.eqb b ">"
  | _, _ => false
  end.

(** All characters but the last. *)
Fixpoint but_last (s : string) : string :=
  match s with
  | EmptyString => EmptyString
  | String _ EmptyString => EmptyString
  | String c s' => String c (but_last s')
  end.

(** Each backslash followed by a double quote stands for a double quote. *)
Fixpoint unescape (s : string) : string :=
  match s with
  | EmptyString => EmptyString
  | String a s' =>
      match s' with
      | String b t =>
          if Ascii.eqb a backslash && Ascii.eqb b dquote
          then String dquote (unescape t)
          else String a (unescape s')
      | EmptyString => s
      end
  end.

(** Reading a token back.  A token between double quotes has the content
    left when the two quotes are stripped and the escaping of the double
    quotes inside is undone; an identifier that is no reserved word, a
    numeral and an HTML-like token have themselves as content; anything
    else is no token of these forms. *)
Definition reparse (token : string) : option string :=
  match token with
  | EmptyString => None
  | String c rest =>
      if Ascii.eqb c dquote then
        match last_char rest with
        | Some d => if Ascii.eqb d dquote then Some (unescape (but_last rest))
                    else None
        | None => None
        end
      else if (bare_identifier token && negb (reserved token))
              || numeral token || html_like token
      then Some token
      else None
  end.

Definition no_colon (s : string) : bool :=
  forall_chars (fun c => negb (Ascii.eqb c ":")) s.

(** Neither the newline nor the double quote. *)
Definition plain (c : ascii) : bool :=
  negb (Ascii.eqb c newline) && negb (Ascii.eqb c dquote).

(** The items of a list are in the order of their keys. *)
Definition key_le (x y : item) : Prop := String.leb (fst x) (fst y) = true.

(** Two dicts with the same items, whatever their iteration order. *)
Definition same_dict (d1 d2 : dict) : Prop :=
  NoDup (keys d1) /\ Permutation d1 d2.

(** Two [kwargs] arguments with the same content. *)
Inductive same_kwargs : option dict -> option dict -> Prop :=
| same_kwargs_none : same_kwargs None None
| same_kwargs_dict d1 d2 :
    same_dict d1 d2 -> same_kwargs (Some d1) (Some d2).

(** Two [attributes] arguments with the same content: mappings with the
    same items, or one sequence of pairs. *)
Inductive same_attributes :
  option attributes_arg -> option attributes_arg -> Prop :=
| same_attributes_none : same_attributes None None
| same_attributes_mapping d1 d2 :
    same_dict d1 d2 -> same_attributes (Some (Mapping d1)) (Some (Mapping d2))
| same_attributes_pairs l :
    same_attributes (Some (Pairs l)) (Some (Pairs l)).

(** [suffix] ends [s]. *)
Fixpoint ends_with (suffix s : string) : bool :=
  String.eqb suffix s
  || match s with
     | EmptyString => false
     | String _ s' => ends_with suffix s'
     end.

(** ** The pattern COMPASS *)




(** ** Notions used to state what the functions do *)

(** [s] without the newline that ends it, when one does. *)
Definition chomp (s : string) : string :=
  match last_char s with
  | Some c => if Ascii.eqb c newline then but_last s else s
  | None => s
  end.

(** The strings [quote] returns as they are, said on the grammar: up to
    one final newline, an HTML-like string, or a bare identifier or
    numeral that is no reserved word. *)
Definition kept (s : string) : bool :=
  html_like (chomp s)
  || ((bare_identifier (chomp s) || numeral (chomp s))
      && negb (reserved (chomp s))).

(** Every double quote of [s] comes right after a backslash; [prev] says
    whether the character before [s] is a backslash. *)
Fixpoint guarded (prev : bool) (s : string) : bool :=
  match s with
  | EmptyString => true
  | String c s' =>
      (negb (Ascii.eqb c dquote) || prev) && guarded (Ascii.eqb c backslash) s'
  end.

(** The number of double quotes of [s]. *)
Fixpoint count_dquote (s : string) : nat :=
  match s with
  | EmptyString => 0
  | String c s' => (if Ascii.eqb c dquote then 1 else 0) + count_dquote s'
  end.

(** An item whose value is not [None]. *)
Definition present (x : item) : bool :=
  match snd x with Some _ => true | None => false end.

(** The items the two loops of [a_list] run over. *)
Definition items_of_kwargs (kwargs : option dict) : list item :=
  match kwargs with
  | Some d => mapping_items d
  | None => []
  end.

Definition items_of_attributes (attributes : option attributes_arg) : list item :=
  match attributes with
  | Some (Mapping d) => mapping_items d
  | Some (Pairs l) => l
  | None => []
  end.

(** No item of the argument has a value. *)
Definition kwargs_absent (kwargs : option dict) : bool :=
  match kwargs with
  | Some d => forallb (fun x => negb (present x)) d
  | None => true
  end.

Definition attributes_absent (attributes : option attributes_arg) : bool :=
  match attributes with
  | Some (Mapping d) => forallb (fun x => negb (present x)) d
  | Some (Pairs l) => forallb (fun x => negb (present x)) l
  | None => true
  end.

(** The argument without its items of value [None]. *)
Definition drop_absent_kwargs (kwargs : option dict) : option dict :=
  option_map (filter present) kwargs.

Definition drop_absent_attributes (attributes : option attributes_arg) :
    option attributes_arg :=
  match attributes with
  | Some (Mapping d) => Some (Mapping (filter present d))
  | Some (Pairs l) => Some (Pairs (filter present l))
  | None => None
  end.

(** The token of the label, when there is a label. *)
Definition label_token (label : option string) : list string :=
  match label with
  | Some l => ["label=" ++ quote l]
  | None => []
  end.

(** The last character of [s] is a newline. *)
Definition ends_with_newline (s : string) : bool :=
  match last_char s with
  | Some c => Ascii.eqb c newline
  | None => false
  end.

(** The characters that are not a colon. *)
Definition not_colon (c : ascii) : bool := negb (Ascii.eqb c ":").

(** Every character class of a pattern lies within [q]. *)
Fixpoint classes_in (q : ascii -> bool) (r : Re.pattern) : Prop :=
  match r with
  | Re.Class p => forall c, p c = true -> q c = true
  | Re.Seq a b | Re.Alt a b => classes_in q a /\ classes_in q b
  | Re.Star a => classes_in q a
  | Re.Void | Re.Eps => True
  end.

(** * Proofs *)

(** ** Strings *)

Lemma append_empty_r (s : string) : s ++ EmptyString = s.
Proof. induction s as [|c s IH]; simpl; [reflexivity | now rewrite IH]. Qed.

Lemma append_assoc (s t u : string) : (s ++ t) ++ u = s ++ (t ++ u).
Proof. induction s as [|c s IH]; simpl; [reflexivity | now rewrite IH]. Qed.

Lemma append_is_empty (s t : string) :
  s ++ t = EmptyString -> s = EmptyString /\ t = EmptyString.
Proof. destruct s; simpl; [auto | discriminate]. Qed.

Lemma forall_chars_app (p : ascii -> bool) (s t : string) :
  forall_chars p (s ++ t) = forall_chars p s && forall_chars p t.
Proof.
  induction s as [|c s IH]; simpl; [reflexivity|].
  now rewrite IH, andb_assoc.
Qed.

Lemma forall_chars_impl (p q : ascii -> bool) (s : string) :
  (forall c, p c = true -> q c = true) ->
  forall_chars p s = true -> forall_chars q s = true.
Proof.
  intros Hpq. induction s as [|c s IH]; simpl; [reflexivity|].
  intros [Hc Hs]%andb_prop. rewrite (Hpq _ Hc). now apply IH.
Qed.

Lemma last_char_app_one (s : string) (c : ascii) :
  last_char (s ++ String c EmptyString) = Some c.
Proof.
  induction s as [|a s IH]; simpl; [reflexivity|].
  rewrite IH. now destruct s.
Qed.

Lemma but_last_app_one (s : string) (c : ascii) :
  but_last (s ++ String c EmptyString) = s.
Proof.
  induction s as [|a s IH]; simpl; [reflexivity|].
  rewrite IH. now destruct s.
Qed.

(** A string with a last character is what precedes it, and it. *)
Lemma last_char_split (s : string) (c : ascii) :
  last_char s = Some c -> s = but_last s ++ String c EmptyString.
Proof.
  induction s as [|a s IH]; simpl; [discriminate|].
  destruct s as [|b s]; [intros [= ->]; reflexivity|].
  intros H. simpl. f_equal. now apply IH.
Qed.

Lemma last_char_forall (p : ascii -> bool) (s : string) (c : ascii) :
  forall_chars p s = true -> last_char s = Some c -> p c = true.
Proof.
  intros Hs Hl. rewrite (last_char_split _ _ Hl), forall_chars_app in Hs.
  apply andb_prop in Hs as [_ Hc]. simpl in Hc. now rewrite andb_true_r in Hc.
Qed.

(** ** The matcher decides membership in the language of a pattern *)

Module ReFacts.
Import Re.

Lemma lang_empty_inv (r : pattern) (s : string) :
  lang r s -> s = EmptyString -> nullable r = true.
Proof.
  induction 1 as [| | a b s t _ IHa _ IHb | | | |]; intros E; simpl;
    try reflexivity; try discriminate.
  - apply append_is_empty in E as [-> ->]. now rewrite IHa, IHb.
  - now rewrite IHlang.
  - rewrite IHlang by assumption. apply orb_true_r.
Qed.

Lemma nullable_lang (r : pattern) :
  nullable r = true <-> lang r EmptyString.
Proof.
  split; [|intros H; now apply (lang_empty_inv r EmptyString)].
  induction r as [| | p | a IHa b IHb | a IHa b IHb | a IHa]; simpl;
    try discriminate.
  - constructor.
  - intros [Ha Hb]%andb_prop.
    change EmptyString with (EmptyString ++ EmptyString). constructor; auto.
  - intros [Ha | Hb]%orb_prop; [apply lang_alt_l | apply lang_alt_r]; auto.
  - constructor.
Qed.

Lemma lang_star_cons (a : pattern) (c : ascii) (w : string) :
  lang (Star a) w ->
  forall s, w = String c s ->
  exists s1 s2, s = s1 ++ s2 /\ lang a (String c s1) /\ lang (Star a) s2.
Proof.
  intros H. remember (Star a) as r eqn:Er.
  induction H as [| | | | | |a' s t Hs _ Ht IHt]; intros s0 E;
    try discriminate Er; try discriminate E.
  injection Er as ->.
  destruct s as [|c' s]; simpl in E.
  - now apply IHt.
  - injection E as -> <-. now exists s, t.
Qed.

Lemma deriv_lang (c : ascii) (r : pattern) (s : string) :
  lang (deriv c r) s <-> lang r (String c s).
Proof.
  revert s.
  induction r as [| | p | a IHa b IHb | a IHa b IHb | a IHa]; intros s; simpl.
  - split; inversion 1.
  - split; inversion 1.
  - destruct (p c) eqn:Hp; split; inversion 1; subst.
    + now constructor.
    + constructor.
    + congruence.
  - assert (L : lang (Seq (deriv c a) b) s ->
                lang (Seq a b) (String c s)).
    { inversion 1; subst.
      change (String c (s0 ++ t)) with (String c s0 ++ t).
      constructor; [now apply IHa | assumption]. }
    assert (R : lang (Seq a b) (String c s) ->
                lang (Seq (deriv c a) b) s \/
                (nullable a = true /\ lang (deriv c b) s)).
    { inversion 1 as [| |a' b' s1 s2 H1 H2| | | |]; subst.
      destruct s1 as [|c' s1]; simpl in *;
        match goal with E : _ = String c s |- _ => injection E as -> <- || subst end.
      - right. split; [now apply nullable_lang | now apply IHb].
      - left. constructor; [now apply IHa | assumption]. }
    destruct (nullable a) eqn:Na; split.
    + inversion 1; subst; [now apply L|].
      change (String c s) with (EmptyString ++ String c s).
      constructor; [now apply nullable_lang | now apply IHb].
    + intros H. destruct (R H) as [H1 | [_ H2]];
        [now apply lang_alt_l | now apply lang_alt_r].
    + apply L.
    + intros H. destruct (R H) as [H1 | [? _]]; [assumption | discriminate].
  - split; inversion 1; subst;
      solve [apply lang_alt_l; now apply IHa | apply lang_alt_r; now apply IHb].
  - split.
    + inversion 1; subst.
      change (String c (s0 ++ t)) with (String c s0 ++ t).
      constructor; [now apply IHa | assumption].
    + intros H.
      destruct (lang_star_cons a c _ H s eq_refl) as (s1 & s2 & -> & H1 & H2).
      constructor; [now apply IHa | assumption].
Qed.

Theorem accepts_lang (r : pattern) (s : string) :
  accepts r s = true <-> lang r s.
Proof.
  revert r. induction s as [|c s IH]; intros r; simpl.
  - apply nullable_lang.
  - rewrite IH. apply deriv_lang.
Qed.

End ReFacts.

(** ** What the patterns of lang.py match *)

Module PatternFacts.
Import Re ReFacts.

Lemma lang_void_inv (s : string) : lang Void s <-> False.
Proof. split; [inversion 1 | contradiction]. Qed.

Lemma lang_eps_inv (s : string) : lang Eps s <-> s = EmptyString.
Proof. split; [now inversion 1 | intros ->; constructor]. Qed.

Lemma lang_class_inv (p : ascii -> bool) (s : string) :
  lang (Class p) s <-> exists c, s = String c EmptyString /\ p c = true.
Proof.
  split; [inversion 1; subst; eauto | intros (c & -> & H); now constructor].
Qed.

Lemma lang_seq_inv (a b : pattern) (s : string) :
  lang (Seq a b) s <-> exists s1 s2, s = s1 ++ s2 /\ lang a s1 /\ lang b s2.
Proof.
  split; [inversion 1; subst; eauto | intros (s1 & s2 & -> & H1 & H2)].
  now constructor.
Qed.

Lemma lang_alt_inv (a b : pattern) (s : string) :
  lang (Alt a b) s <-> lang a s \/ lang b s.
Proof.
  split; [inversion 1; subst; auto | intros [H | H]].
  - now apply lang_alt_l.
  - now apply lang_alt_r.
Qed.

Lemma lang_opt (r : pattern) (s : string) :
  lang (opt r) s <-> lang r s \/ s = EmptyString.
Proof. unfold opt. now rewrite lang_alt_inv, lang_eps_inv. Qed.

(** A class followed by a pattern: a first character, then the rest. *)
Lemma lang_class_seq (p : ascii -> bool) (r : pattern) (s : string) :
  lang (Seq (Class p) r) s <->
  exists c s', s = String c s' /\ p c = true /\ lang r s'.
Proof.
  rewrite lang_seq_inv. split.
  - intros (s1 & s2 & -> & (c & -> & Hc)%lang_class_inv & H2).
    now exists c, s2.
  - intros (c & s' & -> & Hc & Hr).
    exists (String c EmptyString), s'. repeat split; auto.
    apply lang_class_inv. eauto.
Qed.

Lemma lang_star_class (p : ascii -> bool) (s : string) :
  lang (Star (Class p)) s <-> forall_chars p s = true.
Proof.
  split.
  - intros H. remember (Star (Class p)) as r eqn:Er.
    induction H as [| | | | | |a s t Hs _ Ht IHt]; try discriminate Er.
    + reflexivity.
    + injection Er as ->. apply lang_class_inv in Hs as (c & -> & Hc).
      simpl. rewrite Hc. now apply IHt.
  - induction s as [|c s IH]; simpl; [constructor|].
    intros [Hc Hs]%andb_prop.
    change (String c s) with (String c EmptyString ++ s).
    constructor; [now constructor | now apply IH].
Qed.

Lemma lang_plus_class (p : ascii -> bool) (s : string) :
  lang (plus (Class p)) s <-> nonempty s && forall_chars p s = true.
Proof.
  unfold plus. rewrite lang_class_seq. split.
  - intros (c & s' & -> & Hc & Hs%lang_star_class). simpl. now rewrite Hc.
  - destruct s as [|c s]; simpl; [discriminate|].
    intros [Hc Hs]%andb_prop. exists c, s. now rewrite lang_star_class.
Qed.

Lemma lang_lit_seq (a : ascii) (r : pattern) (s : string) :
  lang (Seq (lit a) r) s <-> exists s', s = String a s' /\ lang r s'.
Proof.
  unfold lit. rewrite lang_class_seq. split.
  - intros (c & s' & -> & ->%Ascii.eqb_eq & H). eauto.
  - intros (s' & -> & H). exists a, s'. now rewrite Ascii.eqb_refl.
Qed.

(** The characters of a matched word lie in the classes of the pattern. *)
Lemma lang_chars (q : ascii -> bool) (r : pattern) (s : string) :
  classes_in q r -> lang r s -> forall_chars q s = true.
Proof.
  intros Hq H. induction H; simpl in *; try reflexivity.
  - now rewrite (Hq _ H).
  - destruct Hq. rewrite forall_chars_app, IHlang1, IHlang2; auto.
  - now apply IHlang.
  - now apply IHlang.
  - rewrite forall_chars_app, IHlang1, IHlang2; auto.
Qed.

(** *** [$] *)

Lemma match_dollar_spec (r : pattern) (s : string) :
  match_dollar r s = true <->
  lang r s \/ exists t, s = t ++ String newline EmptyString /\ lang r t.
Proof.
  unfold match_dollar, dollar, lit.
  rewrite accepts_lang, lang_seq_inv. split.
  - intros (s1 & s2 & -> & H1 & [H2 | H2]%lang_alt_inv).
    + apply lang_eps_inv in H2 as ->. rewrite append_empty_r. now left.
    + apply lang_class_inv in H2 as (c & -> & <-%Ascii.eqb_eq). right. eauto.
  - intros [H | (t & -> & H)].
    + exists s, EmptyString. rewrite append_empty_r.
      repeat split; auto. apply lang_alt_l. constructor.
    + exists t, (String newline EmptyString). repeat split; auto.
      apply lang_alt_r. constructor. apply Ascii.eqb_refl.
Qed.

(** Without a newline at the end, [$] is the end of the string. *)
Lemma match_dollar_no_newline (r : pattern) (s : string) :
  last_char s <> Some newline ->
  match_dollar r s = true <-> lang r s.
Proof.
  intros Hn. rewrite match_dollar_spec. split; [|auto].
  intros [H | (t & -> & _)]; [assumption|].
  now rewrite last_char_app_one in Hn.
Qed.

End PatternFacts.

(** ** The three patterns, against the grammar in the words of the spec *)

Module Grammar.
Import Re ReFacts PatternFacts.

Lemma lang_identifier (s : string) :
  lang (Seq (Class id_start) (Star (Class id_char))) s <->
  bare_identifier s = true.
Proof.
  rewrite lang_class_seq. split.
  - intros (c & s' & -> & Hc & Hs%lang_star_class). simpl. now rewrite Hc.
  - destruct s as [|c s]; simpl; [discriminate|].
    intros [Hc Hs]%andb_prop. exists c, s. now rewrite lang_star_class.
Qed.

Lemma span_digits_spec (s : string) :
  s = fst (span_digits s) ++ snd (span_digits s)
  /\ forall_chars digit (fst (span_digits s)) = true.
Proof.
  induction s as [|c s [IH1 IH2]]; simpl; [auto|].
  destruct (digit c) eqn:Hc; simpl; [|auto].
  destruct (span_digits s) as [ds rest]; simpl in *.
  rewrite Hc. split; [now f_equal | assumption].
Qed.

(** Digits followed by something that starts with no digit are split
    where the digits end. *)
Lemma span_digits_app (ds t : string) :
  forall_chars digit ds = true ->
  match first_char t with Some c => digit c = false | None => True end ->
  span_digits (ds ++ t) = (ds, t).
Proof.
  intros Hds Ht. induction ds as [|c ds IH]; simpl in *.
  - destruct t as [|c t]; simpl in *; [reflexivity | now rewrite Ht].
  - apply andb_prop in Hds as [Hc Hds]. now rewrite Hc, IH.
Qed.

Lemma digit_not_dot (c : ascii) : digit c = true -> Ascii.eqb c "." = false.
Proof.
  intros H. destruct (Ascii.eqb_spec c "."); [subst; discriminate | reflexivity].
Qed.

Lemma digit_not_minus (c : ascii) : digit c = true -> Ascii.eqb c "-" = false.
Proof.
  intros H. destruct (Ascii.eqb_spec c "-"); [subst; discriminate | reflexivity].
Qed.

Lemma lang_unsigned (s : string) :
  lang unsigned s <-> unsigned_numeral s = true.
Proof.
  unfold unsigned. rewrite lang_alt_inv, lang_lit_seq, lang_seq_inv. split.
  - intros [(s' & -> & H%lang_plus_class)
           | (ds & t & -> & Hds%lang_plus_class & Ht%lang_opt)].
    + unfold unsigned_numeral. simpl. assumption.
    + apply andb_prop in Hds as [Hne Hds].
      assert (Hfirst : match first_char (ds ++ t) with
                       | Some c => Ascii.eqb c "." | None => false
                       end = false).
      { destruct ds as [|c ds]; [discriminate|]. simpl in *.
        apply andb_prop in Hds as [Hc _]. now apply digit_not_dot. }
      unfold unsigned_numeral. rewrite Hfirst, span_digits_app; auto.
      * rewrite Hne. simpl.
        destruct Ht as [(f & -> & Hf%lang_star_class)%lang_lit_seq | ->];
          [assumption | reflexivity].
      * destruct Ht as [(f & -> & _)%lang_lit_seq | ->]; simpl; auto.
  - unfold unsigned_numeral.
    destruct (match first_char s with
              | Some c => Ascii.eqb c "." | None => false
              end) eqn:Hfirst.
    + destruct s as [|c s]; [discriminate|]. simpl in *.
      apply Ascii.eqb_eq in Hfirst as ->.
      intros H. left. exists s. now rewrite lang_plus_class.
    + destruct (span_digits_spec s) as [Hs Hds].
      destruct (span_digits s) as [ds rest]; simpl in *.
      intros [Hne Hrest]%andb_prop. right. exists ds, rest.
      split; [assumption|]. split.
      * apply lang_plus_class. now rewrite Hne.
      * apply lang_opt. destruct rest as [|c f]; [now right | left].
        apply andb_prop in Hrest as [->%Ascii.eqb_eq Hf].
        apply lang_lit_seq. exists f. now rewrite lang_star_class.
Qed.

(** An unsigned numeral starts with a dot or a digit. *)
Lemma unsigned_numeral_first (s : string) :
  unsigned_numeral s = true ->
  exists c s', s = String c s' /\ Ascii.eqb c "-" = false.
Proof.
  intros H. assert (Hq : forall_chars (fun c => negb (Ascii.eqb c "-")) s = true).
  { apply lang_unsigned in H.
    apply (lang_chars (fun c => negb (Ascii.eqb c "-")) unsigned); [|exact H].
    assert (D : forall c, digit c = true -> negb (Ascii.eqb c "-") = true)
      by (intros c Hc; now rewrite digit_not_minus).
    assert (P : forall c, Ascii.eqb "." c = true -> negb (Ascii.eqb c "-") = true)
      by (now intros c <-%Ascii.eqb_eq).
    simpl. repeat split; auto. }
  destruct s as [|c s']; [discriminate|].
  simpl in Hq. apply andb_prop in Hq as [Hc _].
  exists c, s'. split; [reflexivity | now apply negb_true_iff].
Qed.

Lemma lang_numeral (s : string) :
  lang (Seq (opt (lit "-")) unsigned) s <-> numeral s = true.
Proof.
  rewrite lang_seq_inv. split.
  - intros (s1 & s2 & -> & [H1 | ->]%lang_opt & H2%lang_unsigned).
    + apply lang_class_inv in H1 as (c & -> & <-%Ascii.eqb_eq). assumption.
    + simpl. destruct (unsigned_numeral_first _ H2) as (c & s' & -> & Hc).
      simpl. now rewrite Hc.
  - destruct s as [|c s]; simpl; [discriminate|].
    destruct (Ascii.eqb_spec c "-") as [-> | Hc]; intros H%lang_unsigned.
    + exists (String "-" EmptyString), s. repeat split; auto.
      apply lang_opt. left. constructor. reflexivity.
    + exists EmptyString, (String c s). repeat split; auto.
      apply lang_opt. now right.
Qed.

(** [ID] matches the bare identifiers and the numerals. *)
Theorem lang_ID (s : string) :
  lang ID s <-> bare_identifier s || numeral s = true.
Proof.
  unfold ID.
  rewrite lang_alt_inv, lang_identifier, lang_numeral, orb_true_iff.
  reflexivity.
Qed.

Lemma lower_string_inj_cons (s : string) (c : ascii) (w : string) :
  lower_string s = String c w ->
  exists x s', s = String x s' /\ lower x = c /\ lower_string s' = w.
Proof.
  destruct s as [|x s']; simpl; [discriminate|]. intros [= <- <-]. eauto.
Qed.

Lemma lang_word_i (w s : string) :
  lang (word_i w) s <-> lower_string s = lower_string w.
Proof.
  revert s. induction w as [|c w IH]; intros s; simpl.
  - rewrite lang_eps_inv. destruct s; simpl; split; congruence.
  - unfold lit_i. rewrite lang_class_seq. split.
    + intros (x & s' & -> & Hx%Ascii.eqb_eq & Hs%IH). simpl. congruence.
    + intros (x & s' & -> & Hx & Hs)%lower_string_inj_cons.
      exists x, s'. rewrite IH, Hx. now rewrite Ascii.eqb_refl.
Qed.

Lemma lang_words (ws : list string) (s : string) :
  lang (fold_right (fun w r => Alt (word_i w) r) Void ws) s <->
  existsb (fun w => String.eqb (lower_string s) (lower_string w)) ws = true.
Proof.
  induction ws as [|w ws IH]; simpl.
  - rewrite lang_void_inv. split; [contradiction | discriminate].
  - now rewrite lang_alt_inv, lang_word_i, IH, orb_true_iff, String.eqb_eq.
Qed.

(** [KEYWORD] matches the reserved words in any case of their letters. *)
Theorem lang_KEYWORD (s : string) : lang KEYWORD s <-> reserved s = true.
Proof. unfold KEYWORD. rewrite lang_words. reflexivity. Qed.

Lemma forall_chars_any (s : string) : forall_chars (fun _ => true) s = true.
Proof. induction s; simpl; auto. Qed.

Lemma html_like_spec (s : string) :
  html_like s = true <->
  exists m, s = String "<" (m ++ String ">" EmptyString).
Proof.
  unfold html_like. split.
  - destruct s as [|a s]; simpl; [discriminate|].
    destruct s as [|b s].
    + intros [->%Ascii.eqb_eq H]%andb_prop. discriminate.
    + destruct (last_char (String b s)) as [z|] eqn:Hl; [|discriminate].
      intros [->%Ascii.eqb_eq ->%Ascii.eqb_eq]%andb_prop.
      exists (but_last (String b s)). f_equal. now apply last_char_split.
  - intros (m & ->). simpl first_char.
    assert (E : last_char (String "<" (m ++ String ">" EmptyString)) = Some ">"%char).
    { change (String "<" (m ++ String ">" EmptyString))
        with (String "<" m ++ String ">" EmptyString).
      apply last_char_app_one. }
    now rewrite E.
Qed.

(** [HTML_STRING] matches what starts with [<] and ends with [>]. *)
Theorem lang_HTML_STRING (s : string) :
  lang HTML_STRING s <-> html_like s = true.
Proof.
  unfold HTML_STRING. rewrite html_like_spec, lang_lit_seq. split.
  - intros (s' & -> & (m & t & -> & _ & Ht)%lang_seq_inv).
    apply lang_class_inv in Ht as (c & -> & <-%Ascii.eqb_eq). eauto.
  - intros (m & ->). exists (m ++ String ">" EmptyString). split; [reflexivity|].
    constructor; [|now constructor].
    apply lang_star_class, forall_chars_any.
Qed.

End Grammar.

(** ** quote *)

Module QuoteFacts.
Import Re ReFacts PatternFacts Grammar.

Ltac plain_class :=
  let c := fresh "c" in let H := fresh "H" in
  intros c H; unfold plain;
  destruct (Ascii.eqb_spec c newline) as [-> | _]; [discriminate H|];
  destruct (Ascii.eqb_spec c dquote) as [-> | _]; [discriminate H|];
  reflexivity.

Lemma ID_classes_plain : classes_in plain ID.
Proof. simpl. repeat split; try exact I; plain_class. Qed.

Lemma grammar_plain (s : string) :
  bare_identifier s || numeral s = true -> forall_chars plain s = true.
Proof.
  intros H%lang_ID. exact (lang_chars plain ID s ID_classes_plain H).
Qed.

Lemma grammar_no_newline (s : string) :
  bare_identifier s || numeral s = true -> last_char s <> Some newline.
Proof.
  intros H%grammar_plain Hl.
  now pose proof (last_char_forall plain s newline H Hl).
Qed.

Lemma grammar_first (s : string) :
  bare_identifier s || numeral s = true ->
  exists c s', s = String c s' /\ Ascii.eqb c dquote = false.
Proof.
  intros H. pose proof (grammar_plain s H) as Hp.
  destruct s as [|c s']; [discriminate H|].
  simpl in Hp. apply andb_prop in Hp as [Hc _].
  apply andb_prop in Hc as [_ Hc]. exists c, s'.
  split; [reflexivity | now apply negb_true_iff].
Qed.

(** What the three tests of [quote] say of a string that has no newline
    at its end. *)
Lemma html_no_newline (s : string) :
  last_char s <> Some newline -> html s = html_like s.
Proof.
  intros Hn. apply eq_true_iff_eq. unfold html.
  now rewrite match_dollar_no_newline, lang_HTML_STRING.
Qed.

Lemma valid_id_no_newline (s : string) :
  last_char s <> Some newline ->
  valid_id s = bare_identifier s || numeral s.
Proof.
  intros Hn. apply eq_true_iff_eq. unfold valid_id.
  now rewrite match_dollar_no_newline, lang_ID.
Qed.

Lemma dot_keyword_no_newline (s : string) :
  last_char s <> Some newline -> dot_keyword s = reserved s.
Proof.
  intros Hn. apply eq_true_iff_eq. unfold dot_keyword.
  now rewrite match_dollar_no_newline, lang_KEYWORD.
Qed.

Lemma html_of_html_like (s : string) : html_like s = true -> html s = true.
Proof.
  intros H. unfold html. apply match_dollar_spec. left.
  now apply lang_HTML_STRING.
Qed.

(** With no newline at its end, a string that is not HTML-like and is
    out of the grammar, or is a reserved word, is quoted. *)
Lemma quote_quoted (s : string) :
  last_char s <> Some newline ->
  html_like s = false ->
  bare_identifier s || numeral s = false \/ reserved s = true ->
  quote s = quoted s.
Proof.
  intros Hn Hh Hq. unfold quote.
  rewrite html_no_newline, Hh by assumption.
  rewrite valid_id_no_newline, dot_keyword_no_newline by assumption.
  destruct Hq as [-> | ->]; [reflexivity|]. now rewrite orb_true_r.
Qed.

(** The patterns hold no newline: a matched word has none. *)
Lemma KEYWORD_classes_plain : classes_in plain KEYWORD.
Proof. simpl. repeat split; try exact I; plain_class. Qed.

Lemma append_one_inj (s t : string) (c : ascii) :
  s ++ String c EmptyString = t ++ String c EmptyString -> s = t.
Proof.
  intros E. apply (f_equal but_last) in E.
  now rewrite !but_last_app_one in E.
Qed.

(** The general form of what [$] lets through: an identifier or a
    numeral that is no reserved word, followed by a newline, is returned
    as it is. *)
Lemma quote_newline_unquoted (t : string) :
  bare_identifier t || numeral t = true -> reserved t = false ->
  quote (t ++ String newline EmptyString) = t ++ String newline EmptyString.
Proof.
  intros Hg Hr. unfold quote.
  destruct (html _); [reflexivity|].
  assert (Hv : valid_id (t ++ String newline EmptyString) = true).
  { apply match_dollar_spec. right. exists t. now rewrite lang_ID. }
  assert (Hk : dot_keyword (t ++ String newline EmptyString) = false).
  { apply not_true_is_false. intros [H | (t' & E & H)]%match_dollar_spec.
    - apply (lang_chars plain KEYWORD _ KEYWORD_classes_plain) in H.
      rewrite forall_chars_app in H. apply andb_prop in H as [_ H].
      discriminate H.
    - apply append_one_inj in E as <-. apply lang_KEYWORD in H. congruence. }
  now rewrite Hv, Hk.
Qed.

(** *** Reading the quoted form back *)

Lemma escaped_first (s : string) :
  match first_char (escaped s) with
  | Some b => Ascii.eqb b dquote = false
  | None => True
  end.
Proof.
  destruct s as [|x s]; [exact I|]. unfold escaped. cbn [replace].
  destruct (Ascii.eqb x dquote) eqn:Hx; cbn [append first_char];
    [reflexivity | assumption].
Qed.

Lemma unescape_cons (a : ascii) (s : string) :
  match first_char s with
  | Some b => Ascii.eqb b dquote = false
  | None => True
  end ->
  unescape (String a s) = String a (unescape s).
Proof.
  destruct s as [|b t]; [reflexivity|]. cbn [first_char]. intros H.
  cbn [unescape]. now rewrite H, andb_false_r.
Qed.

Lemma unescape_escaped (s : string) : unescape (escaped s) = s.
Proof.
  induction s as [|c s IH]; [reflexivity|].
  unfold escaped in *. cbn [replace].
  destruct (Ascii.eqb_spec c dquote) as [-> | Hc].
  - cbn [append]. cbn [unescape]. rewrite !Ascii.eqb_refl. cbn [andb].
    now rewrite IH.
  - cbn [append]. rewrite unescape_cons by apply escaped_first.
    now rewrite IH.
Qed.

Lemma reparse_quoted (s : string) : reparse (quoted s) = Some s.
Proof.
  unfold quoted, in_quotes, reparse. rewrite Ascii.eqb_refl.
  rewrite last_char_app_one, Ascii.eqb_refl, but_last_app_one.
  f_equal. apply unescape_escaped.
Qed.

(** With no newline at the end of [s], the token [quote s] reads back
    as [s]. *)
Lemma reparse_quote (s : string) :
  last_char s <> Some newline -> reparse (quote s) = Some s.
Proof.
  intros Hn. unfold quote. rewrite html_no_newline by assumption.
  destruct (html_like s) eqn:Hh.
  - pose proof Hh as (m & ->)%html_like_spec. unfold reparse.
    change (Ascii.eqb "<" dquote) with false. cbv iota.
    now rewrite Hh, orb_true_r.
  - rewrite valid_id_no_newline, dot_keyword_no_newline by assumption.
    destruct (bare_identifier s || numeral s) eqn:Hg; cbn [negb orb];
      [|apply reparse_quoted].
    destruct (reserved s) eqn:Hr; [apply reparse_quoted|].
    destruct (grammar_first s Hg) as (c & s' & -> & Hc).
    unfold reparse. rewrite Hc, Hr, andb_true_r, Hh, orb_false_r.
    now rewrite Hg.
Qed.

End QuoteFacts.

(** ** quote_edge *)

Module EdgeFacts.

Lemma partition_no_sep (s : string) :
  no_colon s = true -> partition ":" s = (s, EmptyString).
Proof.
  unfold no_colon. induction s as [|c s IH]; simpl; [reflexivity|].
  intros [Hc Hs]%andb_prop. apply negb_true_iff in Hc.
  now rewrite Hc, IH.
Qed.

Lemma partition_sep (a b : string) :
  no_colon a = true -> partition ":" (a ++ String ":" b) = (a, b).
Proof.
  unfold no_colon. induction a as [|c a IH]; simpl; [reflexivity|].
  intros [Hc Ha]%andb_prop. apply negb_true_iff in Hc.
  now rewrite Hc, IH.
Qed.

Lemma quote_edge_node (node : string) :
  no_colon node = true -> quote_edge node = quote node.
Proof. intros H. unfold quote_edge. now rewrite partition_no_sep. Qed.

Lemma quote_edge_node_colon (node : string) :
  no_colon node = true ->
  quote_edge (node ++ ":") = quote node.
Proof. intros H. unfold quote_edge. now rewrite partition_sep. Qed.

(** The three parts of an endpoint with two colons or more. *)
Lemma quote_edge_parts (node port compass : string) :
  no_colon node = true -> no_colon port = true ->
  quote_edge (node ++ String ":" (port ++ String ":" compass)) =
  quote node ++ ":" ++ quote port
  ++ (if nonempty compass then String ":" compass else EmptyString).
Proof.
  intros Hn Hp. unfold quote_edge. rewrite partition_sep by assumption.
  assert (E : nonempty (port ++ String ":" compass) = true)
    by now destruct port.
  rewrite E, partition_sep by assumption.
  destruct compass; simpl; [now rewrite append_empty_r | reflexivity].
Qed.

End EdgeFacts.

(** ** Sorting the items of a mapping *)

Module SortFacts.

Lemma leb_iff (a b : string) :
  String.leb a b = true <-> String_as_OT.lt a b \/ a = b.
Proof.
  unfold String.leb. split.
  - destruct (String.compare a b) eqn:E; [| |discriminate]; intros _.
    + right. now apply String.compare_eq_iff.
    + left. now apply String_as_OT.cmp_lt.
  - intros [H | ->].
    + apply String_as_OT.cmp_lt in H. unfold String_as_OT.cmp in H.
      now rewrite H.
    + assert (E : String.compare b b = Eq) by now apply String_as_OT.cmp_eq.
      now rewrite E.
Qed.

Lemma leb_trans (a b c : string) :
  String.leb a b = true -> String.leb b c = true -> String.leb a c = true.
Proof.
  rewrite !leb_iff. intros [H1 | ->] [H2 | ->]; auto.
  left. exact (String_as_OT.lt_trans _ _ _ H1 H2).
Qed.

Lemma key_le_trans (x y z : item) : key_le x y -> key_le y z -> key_le x z.
Proof. unfold key_le. apply leb_trans. Qed.

Lemma key_le_total (x y : item) :
  String.leb (fst x) (fst y) = false -> key_le y x.
Proof.
  unfold key_le. intros H.
  destruct (String.leb_total (fst x) (fst y)) as [E | E]; congruence.
Qed.

Lemma insert_item_perm (x : item) (l : list item) :
  Permutation (insert_item x l) (x :: l).
Proof.
  induction l as [|y l IH]; simpl; [reflexivity|].
  destruct (String.leb (fst x) (fst y)); [reflexivity|].
  rewrite IH. apply perm_swap.
Qed.

Lemma sort_items_perm (l : list item) : Permutation (sort_items l) l.
Proof.
  induction l as [|x l IH]; simpl; [reflexivity|].
  rewrite insert_item_perm. now constructor.
Qed.

Lemma insert_item_sorted (x : item) (l : list item) :
  StronglySorted key_le l -> StronglySorted key_le (insert_item x l).
Proof.
  induction 1 as [|y l Hl IH Hy]; simpl.
  - repeat constructor.
  - destruct (String.leb (fst x) (fst y)) eqn:E.
    + constructor; [now constructor|]. constructor; [exact E|].
      eapply Forall_impl; [|exact Hy]. intros z. now apply key_le_trans.
    + constructor; [exact IH|].
      eapply Permutation_Forall; [symmetry; apply insert_item_perm|].
      constructor; [now apply key_le_total | exact Hy].
Qed.

Lemma sort_items_sorted (l : list item) : StronglySorted key_le (sort_items l).
Proof.
  induction l as [|x l IH]; simpl; [constructor | now apply insert_item_sorted].
Qed.

(** In a dict, a key has one item. *)
Lemma key_unique (l : list item) (x y : item) :
  NoDup (keys l) -> In x l -> In y l -> fst x = fst y -> x = y.
Proof.
  unfold keys. induction l as [|z l IH]; simpl; [contradiction|].
  intros Hnd [-> | Hx] [-> | Hy] E; auto.
  - inversion Hnd as [|? ? Hz _]; subst. exfalso. apply Hz.
    rewrite E. now apply in_map.
  - inversion Hnd as [|? ? Hz _]; subst. exfalso. apply Hz.
    rewrite <- E. now apply in_map.
  - inversion Hnd; subst. now apply IH.
Qed.

(** Two sorted lists of the same items, with no key twice, are equal. *)
Lemma sorted_perm_eq (l1 l2 : list item) :
  StronglySorted key_le l1 -> StronglySorted key_le l2 ->
  Permutation l1 l2 -> NoDup (keys l1) -> l1 = l2.
Proof.
  revert l2. induction l1 as [|x l1 IH]; intros l2 S1 S2 P Hnd.
  - now apply Permutation_nil in P.
  - destruct l2 as [|y l2];
      [apply Permutation_sym, Permutation_nil in P; discriminate|].
    assert (E : x = y).
    { assert (Hx : In x (y :: l2))
        by (apply (Permutation_in _ P); now left).
      assert (Hy : In y (x :: l1))
        by (apply (Permutation_in _ (Permutation_sym P)); now left).
      destruct Hx as [-> | Hx]; [reflexivity|].
      destruct Hy as [-> | Hy]; [reflexivity|].
      apply StronglySorted_inv in S1 as [_ F1].
      apply StronglySorted_inv in S2 as [_ F2].
      rewrite Forall_forall in F1, F2.
      apply (key_unique (x :: l1)); simpl; auto.
      apply String.leb_antisym; [now apply F1 | now apply F2]. }
    subst y. f_equal.
    apply StronglySorted_inv in S1 as [S1 _].
    apply StronglySorted_inv in S2 as [S2 _].
    apply IH; auto.
    + now apply Permutation_cons_inv in P.
    + unfold keys in *. simpl in Hnd. now inversion Hnd.
Qed.

(** The sorted items of a dict do not depend on its iteration order. *)
Lemma mapping_items_perm (d1 d2 : dict) :
  NoDup (keys d1) -> Permutation d1 d2 ->
  mapping_items d1 = mapping_items d2.
Proof.
  intros Hnd P. unfold mapping_items.
  apply sorted_perm_eq; try apply sort_items_sorted.
  - now rewrite !sort_items_perm.
  - unfold keys. rewrite (Permutation_map fst (sort_items_perm d1)).
    exact Hnd.
Qed.

Lemma nonempty_list_perm {A : Type} (l1 l2 : list A) :
  Permutation l1 l2 -> nonempty_list l1 = nonempty_list l2.
Proof.
  intros P. destruct l1, l2; try reflexivity.
  - apply Permutation_nil in P. discriminate.
  - apply Permutation_sym, Permutation_nil in P. discriminate.
Qed.

End SortFacts.

(** ** a_list and attr_list *)

Module AssembleFacts.
Import SortFacts.

Lemma a_list_same (label : option string) (kw1 kw2 : option dict)
    (at1 at2 : option attributes_arg) :
  same_kwargs kw1 kw2 -> same_attributes at1 at2 ->
  a_list label kw1 at1 = a_list label kw2 at2.
Proof.
  intros Hk Ha. unfold a_list.
  destruct Hk as [|d1 d2 [Hnd P]].
  - destruct Ha as [|e1 e2 [Hne Q]|l]; try reflexivity.
    now rewrite (mapping_items_perm e1 e2), (nonempty_list_perm e1 e2).
  - rewrite (mapping_items_perm d1 d2), (nonempty_list_perm d1 d2)
      by assumption.
    destruct Ha as [|e1 e2 [Hne Q]|l]; try reflexivity.
    now rewrite (mapping_items_perm e1 e2), (nonempty_list_perm e1 e2).
Qed.

End AssembleFacts.

(** * The claims *)

Module Claims.
Import Re ReFacts PatternFacts Grammar QuoteFacts EdgeFacts SortFacts
  AssembleFacts.

(** C1, at an input where the code departs from it.  The claim has every
    string that is not HTML-like and is out of the identifier and numeral
    grammar returned between double quotes.  An identifier followed by a
    newline is such a string: it is not HTML-like, it is out of the
    grammar, and [quote] returns it as it is, not quoted, since the [$]
    that ends [ID] also matches before a final newline.  The same [$] in
    [HTML_STRING] lets an HTML-like string followed by a newline through. *)
Theorem quote_trailing_newline_unquoted :
  let s := "spam" ++ String newline EmptyString in
  let h := "<b>" ++ String newline EmptyString in
  html_like s = false
  /\ bare_identifier s || numeral s = false
  /\ quote s = s
  /\ quote s <> quoted s
  /\ html_like h = false
  /\ bare_identifier h || numeral h = false
  /\ quote h = h
  /\ quote h <> quoted h.
Proof.
  cbv zeta. repeat split; try (vm_compute; reflexivity);
    intros H; vm_compute in H; discriminate H.
Qed.

(** C2: [a_list('spam', {'spam': None, 'ham': 'ham ham', 'eggs': ''})]
    is [label=spam eggs=QQ ham=Qham hamQ], with Q the double quote
    (the character of code 34, written out in the statement), in
    whatever order the dict iterates over its three items: the label
    comes first, the item whose value is [None] is dropped, the item
    whose value is the empty string is kept, the items are in the order
    of their keys, and single spaces separate the tokens. *)
Theorem a_list_example (kwargs : dict) :
  Permutation
    [("spam", None); ("ham", Some "ham ham"); ("eggs", Some EmptyString)]
    kwargs ->
  a_list (Some "spam") (Some kwargs) None =
  "label=spam eggs="
  ++ String "034"%char (String "034"%char
       (" ham=" ++ String "034"%char
          ("ham ham" ++ String "034"%char EmptyString))).
Proof.
  intros P.
  match type of P with Permutation ?d _ =>
    transitivity (a_list (Some "spam") (Some d) None)
  end.
  - symmetry. apply a_list_same; constructor. split; [|exact P].
    repeat constructor; simpl; intuition discriminate.
  - vm_compute. reflexivity.
Qed.

Lemma a_list_example_witness :
  a_list (Some "spam")
    (Some [("spam", None); ("ham", Some "ham ham"); ("eggs", Some EmptyString)])
    None =
  "label=spam eggs="
  ++ String "034"%char (String "034"%char
       (" ham=" ++ String "034"%char
          ("ham ham" ++ String "034"%char EmptyString))).
Proof. apply a_list_example. apply Permutation_refl. Defined.

(** C3: [attr_list] is the empty string when [a_list] of the same
    arguments is empty, and otherwise a space, an opening bracket, the
    result of [a_list] and a closing bracket; [attr_list()] is the empty
    string. *)
Theorem attr_list_wraps (label : option string) (kwargs : option dict)
    (attributes : option attributes_arg) :
  (a_list label kwargs attributes = EmptyString ->
   attr_list label kwargs attributes = EmptyString)
  /\ (a_list label kwargs attributes <> EmptyString ->
      attr_list label kwargs attributes =
      " [" ++ a_list label kwargs attributes ++ "]")
  /\ attr_list None None None = EmptyString.
Proof.
  unfold attr_list. repeat split.
  - now intros ->.
  - destruct (a_list label kwargs attributes); [contradiction | reflexivity].
Qed.

Lemma attr_list_wraps_witness :
  attr_list None None None = EmptyString
  /\ attr_list (Some "spam spam")
       (Some [("eggs", Some "eggs"); ("ham", Some "ham ham")]) None =
     " [label=" ++ in_quotes "spam spam" ++ " eggs=eggs ham="
     ++ in_quotes "ham ham" ++ "]".
Proof.
  split.
  - destruct (attr_list_wraps None None None) as (H & _ & _).
    apply H. reflexivity.
  - destruct (attr_list_wraps (Some "spam spam")
                (Some [("eggs", Some "eggs"); ("ham", Some "ham ham")]) None)
      as (_ & H & _).
    rewrite H; [reflexivity | discriminate].
Defined.

(** C4: a string that matches [[A-Za-z_][A-Za-z0-9_]*] or the numeral
    grammar (an optional minus, then digits with an optional fractional
    part, or a dot and digits), and that is none of the reserved words in
    any case of its letters, is returned unmodified. *)
Theorem quote_bare_unmodified (s : string) :
  bare_identifier s || numeral s = true -> reserved s = false ->
  quote s = s.
Proof.
  intros Hg Hr. pose proof (grammar_no_newline s Hg) as Hn.
  unfold quote. destruct (html s); [reflexivity|].
  now rewrite valid_id_no_newline, dot_keyword_no_newline, Hg, Hr.
Qed.

Lemma quote_bare_unmodified_witness :
  quote "-4.2" = "-4.2" /\ quote ".42" = ".42" /\ quote "spam" = "spam".
Proof.
  split; [|split].
  - apply (quote_bare_unmodified "-4.2"); reflexivity.
  - apply (quote_bare_unmodified ".42"); reflexivity.
  - apply (quote_bare_unmodified "spam"); reflexivity.
Defined.

(** C5: a string that starts with [<] and ends with [>] is returned
    unmodified, whatever lies between the two. *)
Theorem quote_html_unmodified (s : string) :
  html_like s = true -> quote s = s.
Proof. intros H. unfold quote. now rewrite html_of_html_like. Qed.

Lemma quote_html_unmodified_witness :
  quote "<<b>spam</b>>" = "<<b>spam</b>>"
  /\ quote ("<a b=" ++ in_quotes "c d" ++ String newline ">") =
     "<a b=" ++ in_quotes "c d" ++ String newline ">".
Proof. split; apply quote_html_unmodified; reflexivity. Defined.

(** C6, at an input where the code departs from it.  An identifier
    followed by a newline is returned as it is, and what is returned is
    none of the forms a token is read back from: not between double
    quotes, no bare identifier, no numeral, not HTML-like.  It does not
    read back as the string that was given. *)
Theorem reparse_trailing_newline_fails :
  let s := "spam" ++ String newline EmptyString in
  quote s = s /\ reparse (quote s) = None.
Proof. cbv zeta. split; vm_compute; reflexivity. Qed.

(** C7, as the code has it.  An endpoint with no colon is the quoted
    node; an endpoint that is a node and one colon is the quoted node,
    with no port; with nothing after the second colon no compass is
    appended.  An empty port is left out only when nothing at all follows
    the first colon: for a node and two colons, the port is emitted as
    two double quotes. *)
Theorem quote_edge_empty_components (node port : string) :
  no_colon node = true -> no_colon port = true ->
  quote_edge node = quote node
  /\ quote_edge (node ++ ":") = quote node
  /\ quote_edge (node ++ ":" ++ port ++ ":") = quote node ++ ":" ++ quote port
  /\ quote_edge (node ++ "::") =
     quote node ++ String ":" (String "034"%char (String "034"%char EmptyString)).
Proof.
  intros Hn Hp. repeat split.
  - now apply quote_edge_node.
  - now apply quote_edge_node_colon.
  - change (node ++ ":" ++ port ++ ":")
      with (node ++ String ":" (port ++ String ":" EmptyString)).
    rewrite quote_edge_parts by assumption. simpl.
    now rewrite !append_empty_r.
  - change (node ++ "::")
      with (node ++ String ":" (EmptyString ++ String ":" EmptyString)).
    rewrite quote_edge_parts by auto. simpl. reflexivity.
Qed.

Lemma quote_edge_empty_components_witness :
  quote_edge "a" = "a" /\ quote_edge "a:" = "a"
  /\ quote_edge "a:b:" = "a:b"
  /\ quote_edge "a::" =
     String "a" (String ":" (String "034"%char (String "034"%char EmptyString))).
Proof. apply (quote_edge_empty_components "a" "b"); reflexivity. Defined.

(** C7 as stated fails: the endpoint [a::] ends with a colon, its port
    and its compass are both empty, and the port is emitted as two double
    quotes. *)
Lemma quote_edge_emits_empty_port :
  last_char "a::" = Some ":"%char
  /\ quote_edge "a::" =
     String "a" (String ":" (String "034"%char (String "034"%char EmptyString)))
  /\ ends_with (String ":" (String "034"%char (String "034"%char EmptyString)))
       (quote_edge "a::") = true.
Proof. repeat split; vm_compute; reflexivity. Qed.

(** C8: with the same label, two [kwargs] dicts that hold the same
    items and two [attributes] mappings that hold the same items, in
    whatever iteration orders, give the same [a_list] and the same
    [attr_list]. *)
Theorem a_list_order_independent (label : option string)
    (kwargs1 kwargs2 : option dict) (attributes1 attributes2 : option attributes_arg) :
  same_kwargs kwargs1 kwargs2 -> same_attributes attributes1 attributes2 ->
  a_list label kwargs1 attributes1 = a_list label kwargs2 attributes2
  /\ attr_list label kwargs1 attributes1 = attr_list label kwargs2 attributes2.
Proof.
  intros Hk Ha. pose proof (a_list_same label _ _ _ _ Hk Ha) as E.
  split; [exact E|]. unfold attr_list. now rewrite E.
Qed.

Lemma a_list_order_independent_witness :
  a_list (Some "x") (Some [("b", Some "1"); ("a", Some "2")])
    (Some (Mapping [("d", None); ("c", Some "3")])) =
  a_list (Some "x") (Some [("a", Some "2"); ("b", Some "1")])
    (Some (Mapping [("c", Some "3"); ("d", None)]))
  /\ attr_list (Some "x") (Some [("b", Some "1"); ("a", Some "2")])
       (Some (Mapping [("d", None); ("c", Some "3")])) =
     attr_list (Some "x") (Some [("a", Some "2"); ("b", Some "1")])
       (Some (Mapping [("c", Some "3"); ("d", None)])).
Proof.
  apply a_list_order_independent; constructor; split;
    solve [ apply perm_swap
          | repeat constructor; simpl; intuition discriminate ].
Defined.

(** C9: for a node with no colon in it and a compass that is not empty,
    the endpoint made of the node, two colons and the compass has its
    empty port emitted as two double quotes: the quoted node, a colon,
    two double quotes, a colon, the compass. *)
Theorem quote_edge_empty_port (node compass : string) :
  no_colon node = true -> nonempty compass = true ->
  quote_edge (node ++ "::" ++ compass) =
  quote node
  ++ String ":" (String "034"%char (String "034"%char (String ":" compass))).
Proof.
  intros Hn Hc.
  change (node ++ "::" ++ compass)
    with (node ++ String ":" (EmptyString ++ String ":" compass)).
  rewrite quote_edge_parts by auto. now rewrite Hc.
Qed.

Lemma quote_edge_empty_port_witness :
  quote_edge "a::n" =
  String "a" (String ":" (String "034"%char (String "034"%char ":n"))).
Proof. apply (quote_edge_empty_port "a" "n"); reflexivity. Defined.

(** C10: in an endpoint with two colons or more, what follows the second
    colon is emitted as it is after the quoted node and the quoted port,
    not quoted, not escaped and not split again, whatever it holds. *)
Theorem quote_edge_compass_verbatim (node port compass : string) :
  no_colon node = true -> no_colon port = true ->
  quote_edge (node ++ ":" ++ port ++ ":" ++ compass) =
  quote node ++ ":" ++ quote port
  ++ (if nonempty compass then ":" ++ compass else EmptyString).
Proof. intros Hn Hp. now apply quote_edge_parts. Qed.

Lemma quote_edge_compass_verbatim_witness :
  quote_edge "a:b:c:d" = "a:b:c:d"
  /\ quote_edge "a:b:c d" = "a:b:c d"
  /\ quote_edge ("a:b:" ++ in_quotes "c") = "a:b:" ++ in_quotes "c".
Proof.
  split; [|split].
  - apply (quote_edge_compass_verbatim "a" "b" "c:d"); reflexivity.
  - apply (quote_edge_compass_verbatim "a" "b" "c d"); reflexivity.
  - apply (quote_edge_compass_verbatim "a" "b" (in_quotes "c")); reflexivity.
Defined.

End Claims.

(** * Further properties of the code *)

(** ** [$], said with [chomp] *)

Module DollarFacts.
Import Re ReFacts PatternFacts Grammar QuoteFacts.

Lemma chomp_app_newline (t : string) :
  chomp (t ++ String newline EmptyString) = t.
Proof.
  unfold chomp. now rewrite last_char_app_one, Ascii.eqb_refl, but_last_app_one.
Qed.

Lemma chomp_no_newline (s : string) :
  last_char s <> Some newline -> chomp s = s.
Proof.
  unfold chomp. destruct (last_char s) as [c|]; [|reflexivity].
  destruct (Ascii.eqb_spec c newline) as [-> | _]; [congruence | reflexivity].
Qed.

(** A string is its [chomp], or its [chomp] and a newline. *)
Lemma chomp_cases (s : string) :
  (last_char s <> Some newline /\ chomp s = s)
  \/ s = chomp s ++ String newline EmptyString.
Proof.
  assert (D : last_char s = Some newline \/ last_char s <> Some newline).
  { destruct (last_char s) as [c|]; [|right; discriminate].
    destruct (Ascii.eqb_spec c newline) as [-> | Hc]; [now left|].
    right. congruence. }
  destruct D as [Hl | Hn].
  - right. pose proof (last_char_split s _ Hl) as E.
    rewrite E at 2. rewrite chomp_app_newline. exact E.
  - left. split; [exact Hn | now apply chomp_no_newline].
Qed.

(** For a pattern none of whose words ends with a newline, [r$] matches
    [s] when [r] matches [s] without its final newline. *)
Lemma match_dollar_chomp (r : pattern) (s : string) :
  (forall w, lang r w -> last_char w <> Some newline) ->
  match_dollar r s = true <-> lang r (chomp s).
Proof.
  intros Hr. rewrite match_dollar_spec. split.
  - intros [H | (t & -> & H)].
    + now rewrite chomp_no_newline by now apply Hr.
    + now rewrite chomp_app_newline.
  - intros H. destruct (chomp_cases s) as [[_ E] | E].
    + left. now rewrite <- E.
    + right. eauto.
Qed.

Lemma html_like_no_newline (w : string) :
  html_like w = true -> last_char w <> Some newline.
Proof.
  unfold html_like. destruct (first_char w); [|discriminate].
  destruct (last_char w) as [b|]; [|discriminate].
  intros [_ ->%Ascii.eqb_eq]%andb_prop. discriminate.
Qed.

Lemma reserved_plain (w : string) :
  reserved w = true -> forall_chars plain w = true.
Proof.
  intros H%lang_KEYWORD.
  exact (lang_chars plain KEYWORD w KEYWORD_classes_plain H).
Qed.

Lemma reserved_no_newline (w : string) :
  reserved w = true -> last_char w <> Some newline.
Proof.
  intros H%reserved_plain Hl.
  now pose proof (last_char_forall plain w newline H Hl).
Qed.

Lemma html_chomp (s : string) : html s = html_like (chomp s).
Proof.
  apply eq_true_iff_eq. unfold html.
  rewrite match_dollar_chomp, lang_HTML_STRING; [reflexivity|].
  intros w Hw%lang_HTML_STRING. now apply html_like_no_newline.
Qed.

Lemma valid_id_chomp (s : string) :
  valid_id s = bare_identifier (chomp s) || numeral (chomp s).
Proof.
  apply eq_true_iff_eq. unfold valid_id.
  rewrite match_dollar_chomp, lang_ID; [reflexivity|].
  intros w Hw%lang_ID. now apply grammar_no_newline.
Qed.

Lemma dot_keyword_chomp (s : string) : dot_keyword s = reserved (chomp s).
Proof.
  apply eq_true_iff_eq. unfold dot_keyword.
  rewrite match_dollar_chomp, lang_KEYWORD; [reflexivity|].
  intros w Hw%lang_KEYWORD. now apply reserved_no_newline.
Qed.

(** The decision of [quote], on the grammar. *)
Lemma quote_kept (s : string) : kept s = true -> quote s = s.
Proof.
  unfold kept, quote. rewrite html_chomp, valid_id_chomp, dot_keyword_chomp.
  destruct (html_like (chomp s)); [reflexivity|].
  destruct (bare_identifier (chomp s) || numeral (chomp s));
    [|discriminate].
  now destruct (reserved (chomp s)).
Qed.

Lemma quote_not_kept (s : string) : kept s = false -> quote s = quoted s.
Proof.
  unfold kept, quote. rewrite html_chomp, valid_id_chomp, dot_keyword_chomp.
  destruct (html_like (chomp s)); [discriminate|].
  destruct (bare_identifier (chomp s) || numeral (chomp s));
    [|reflexivity].
  now destruct (reserved (chomp s)).
Qed.

(** The first character of a string is that of its [chomp]. *)
Lemma chomp_first (s : string) (c : ascii) (w : string) :
  chomp s = String c w -> exists w', s = String c w'.
Proof.
  intros E. destruct (chomp_cases s) as [[_ E'] | E'].
  - exists w. congruence.
  - rewrite E in E'. simpl in E'. eauto.
Qed.

(** A string that is kept starts with a character that is no double
    quote. *)
Lemma kept_first (s : string) :
  kept s = true ->
  exists c w, s = String c w /\ Ascii.eqb c dquote = false.
Proof.
  unfold kept. intros [H | [H _]%andb_prop]%orb_prop.
  - apply html_like_spec in H as (m & E).
    apply chomp_first in E as (w' & ->). now exists "<"%char, w'.
  - destruct (grammar_first _ H) as (c & w & E & Hc).
    apply chomp_first in E as (w' & ->). now exists c, w'.
Qed.

End DollarFacts.

(** ** Escaping and joining *)

Module TextFacts.
Import QuoteFacts.

Lemma guarded_escaped (prev : bool) (s : string) :
  guarded prev (escaped s) = true.
Proof.
  revert prev. unfold escaped.
  induction s as [|c s IH]; intros prev; [reflexivity|].
  cbn [replace]. destruct (Ascii.eqb c dquote) eqn:Hc; cbn [append guarded].
  - change (Ascii.eqb backslash dquote) with false.
    change (Ascii.eqb backslash backslash) with true.
    rewrite Ascii.eqb_refl. cbn [negb orb andb].
    change (Ascii.eqb dquote backslash) with false. apply IH.
  - rewrite Hc. cbn [negb orb andb]. apply IH.
Qed.

Lemma length_app (s t : string) :
  String.length (s ++ t) = String.length s + String.length t.
Proof. induction s as [|c s IH]; simpl; [reflexivity | now rewrite IH]. Qed.

Lemma length_escaped (s : string) :
  String.length (escaped s) = String.length s + count_dquote s.
Proof.
  unfold escaped. induction s as [|c s IH]; [reflexivity|].
  cbn [replace count_dquote]. rewrite length_app, IH.
  destruct (Ascii.eqb c dquote); simpl; lia.
Qed.

Lemma length_in_quotes (s : string) :
  String.length (in_quotes s) = String.length s + 2.
Proof. unfold in_quotes. simpl. rewrite length_app. simpl. lia. Qed.

Lemma escaped_plain (s : string) : forall_chars plain s = true -> escaped s = s.
Proof.
  unfold escaped. induction s as [|c s IH]; [reflexivity|].
  cbn [forall_chars replace]. intros [Hc Hs]%andb_prop.
  apply andb_prop in Hc as [_ Hc%negb_true_iff].
  now rewrite Hc, IH.
Qed.

Lemma nonempty_app_l (s t : string) :
  nonempty s = true -> nonempty (s ++ t) = true.
Proof. now destruct s. Qed.

Lemma nonempty_quote (s : string) : nonempty (quote s) = true.
Proof.
  unfold quote.
  assert (V : valid_id EmptyString = false) by reflexivity.
  destruct (html s) eqn:Hh; [destruct s; [discriminate Hh | reflexivity]|].
  destruct (negb (valid_id s) || dot_keyword s) eqn:Hq; [reflexivity|].
  destruct s; [|reflexivity]. now rewrite V in Hq.
Qed.

(** *** [join] *)

Lemma join_cons (sep x : string) (l : list string) :
  join sep (x :: l) =
  x ++ (if nonempty_list l then sep ++ join sep l else EmptyString).
Proof. destruct l; simpl; [now rewrite append_empty_r | reflexivity]. Qed.

Lemma join_app (sep : string) (l1 l2 : list string) :
  nonempty_list l1 = true -> nonempty_list l2 = true ->
  join sep (l1 ++ l2) = join sep l1 ++ sep ++ join sep l2.
Proof.
  intros H1 H2. induction l1 as [|x l1 IH]; [discriminate|].
  destruct l1 as [|y l1].
  - destruct l2; [discriminate | reflexivity].
  - change (join sep ((x :: y :: l1) ++ l2))
      with (x ++ sep ++ join sep ((y :: l1) ++ l2)).
    rewrite IH by reflexivity.
    change (join sep (x :: y :: l1)) with (x ++ sep ++ join sep (y :: l1)).
    now rewrite !append_assoc.
Qed.

Lemma nonempty_join (sep : string) (l : list string) :
  Forall (fun s => nonempty s = true) l ->
  nonempty (join sep l) = nonempty_list l.
Proof.
  intros H. destruct H as [|x l Hx _]; [reflexivity|].
  rewrite join_cons. now apply nonempty_app_l.
Qed.

Lemma prefix_app (s t : string) : String.prefix s (s ++ t) = true.
Proof.
  induction s as [|c s IH]; simpl; [now destruct t|].
  destruct (ascii_dec c c); [exact IH | contradiction].
Qed.

End TextFacts.

(** ** The tokens of a_list *)

Module TokenFacts.
Import SortFacts TextFacts.

(** A guard [if l:] before a loop over [l] changes nothing. *)
Lemma guard_nil (r : list string) (f : list item -> list string)
    (l : list item) :
  f [] = [] ->
  (if nonempty_list l then (r ++ f l)%list else r) = (r ++ f l)%list.
Proof. intros E. destruct l; simpl; [now rewrite E, app_nil_r | reflexivity]. Qed.

(** [a_list] joins, with single spaces, the label token, the tokens of
    the items of [kwargs] and the tokens of the items of [attributes]. *)
Lemma a_list_tokens (label : option string) (kwargs : option dict)
    (attributes : option attributes_arg) :
  a_list label kwargs attributes =
  join " " (label_token label
            ++ format_items (items_of_kwargs kwargs)
            ++ format_items (items_of_attributes attributes))%list.
Proof.
  unfold a_list. fold (label_token label). f_equal.
  assert (K : (match kwargs with
               | Some kw =>
                   if nonempty_list kw
                   then (label_token label ++ format_items (mapping_items kw))%list
                   else label_token label
               | None => label_token label
               end) =
              (label_token label ++ format_items (items_of_kwargs kwargs))%list).
  { destruct kwargs as [kw|]; simpl; [|now rewrite app_nil_r].
    now apply (guard_nil _ (fun l => format_items (mapping_items l))). }
  rewrite K. rewrite app_assoc.
  destruct attributes as [[d | l]|]; simpl; [| |now rewrite app_nil_r].
  - now apply (guard_nil _ (fun l => format_items (mapping_items l))).
  - now apply (guard_nil _ format_items).
Qed.

Lemma format_items_nonempty (l : list item) :
  Forall (fun s => nonempty s = true) (format_items l).
Proof.
  induction l as [|[k [v|]] l IH]; simpl; [constructor | | exact IH].
  constructor; [|exact IH]. apply nonempty_app_l, nonempty_quote.
Qed.

Lemma label_token_nonempty (label : option string) :
  Forall (fun s => nonempty s = true) (label_token label).
Proof. destruct label; repeat constructor. Qed.

Lemma format_items_app (l1 l2 : list item) :
  format_items (l1 ++ l2) = (format_items l1 ++ format_items l2)%list.
Proof.
  induction l1 as [|[k [v|]] l1 IH]; simpl; [reflexivity | | exact IH].
  now rewrite IH.
Qed.

Lemma format_items_filter (l : list item) :
  format_items (filter present l) = format_items l.
Proof.
  induction l as [|[k [v|]] l IH]; simpl; [reflexivity | | exact IH].
  now rewrite IH.
Qed.

(** No token comes out of a list when no item of it has a value. *)
Lemma format_items_nil (l : list item) :
  format_items l = [] <-> forallb (fun x => negb (present x)) l = true.
Proof.
  induction l as [|[k [v|]] l IH]; simpl.
  - tauto.
  - split; discriminate.
  - exact IH.
Qed.

Lemma forallb_perm {A : Type} (p : A -> bool) (l1 l2 : list A) :
  Permutation l1 l2 -> forallb p l1 = forallb p l2.
Proof.
  induction 1; simpl; try congruence.
  - now rewrite !andb_assoc, (andb_comm (p y)).
Qed.

(** *** Sorting and dropping commute *)

Lemma insert_item_least (x : item) (l : list item) :
  Forall (key_le x) l -> insert_item x l = x :: l.
Proof.
  destruct 1 as [|y l Hy _]; [reflexivity|]. simpl.
  unfold key_le in Hy. now rewrite Hy.
Qed.

Lemma filter_insert_item (p : item -> bool) (x : item) (l : list item) :
  StronglySorted key_le l ->
  filter p (insert_item x l) =
  if p x then insert_item x (filter p l) else filter p l.
Proof.
  induction 1 as [|y l Hl IH Hy]; simpl.
  - now destruct (p x).
  - destruct (String.leb (fst x) (fst y)) eqn:E; simpl.
    + destruct (p x) eqn:Px; [|reflexivity].
      destruct (p y) eqn:Py; simpl; [now rewrite E|].
      rewrite insert_item_least; [reflexivity|].
      apply Forall_forall. intros z [Hz _]%filter_In.
      rewrite Forall_forall in Hy.
      exact (key_le_trans x y z E (Hy z Hz)).
    + rewrite IH. destruct (p y) eqn:Py; simpl.
      * destruct (p x); [now rewrite E | reflexivity].
      * reflexivity.
Qed.

Lemma filter_sort_items (p : item -> bool) (l : list item) :
  filter p (sort_items l) = sort_items (filter p l).
Proof.
  induction l as [|x l IH]; [reflexivity|]. simpl.
  rewrite filter_insert_item by apply sort_items_sorted.
  rewrite IH. now destruct (p x).
Qed.

Lemma format_mapping_items_filter (d : dict) :
  format_items (mapping_items (filter present d)) =
  format_items (mapping_items d).
Proof.
  unfold mapping_items.
  now rewrite <- filter_sort_items, format_items_filter.
Qed.

End TokenFacts.

(** ** COMPASS *)

Module CompassFacts.
Import Re ReFacts PatternFacts DollarFacts.





End CompassFacts.

(** ** Lemmas shared by the properties below *)

Module ExtraFacts.
Import Re ReFacts PatternFacts Grammar QuoteFacts EdgeFacts SortFacts
  DollarFacts TextFacts TokenFacts.

Lemma ends_with_newline_false (s : string) :
  ends_with_newline s = false -> last_char s <> Some newline.
Proof.
  unfold ends_with_newline. intros H E. rewrite E in H.
  now rewrite Ascii.eqb_refl in H.
Qed.

Lemma ends_with_newline_true (s : string) :
  ends_with_newline s = true -> last_char s = Some newline.
Proof.
  unfold ends_with_newline. destruct (last_char s) as [c|]; [|discriminate].
  now intros ->%Ascii.eqb_eq.
Qed.

(** An HTML-like string is no reserved word. *)
Lemma html_like_not_reserved (s : string) :
  html_like s = true -> reserved s = false.
Proof. intros (m & ->)%html_like_spec. reflexivity. Qed.

(** A reserved word is its own [chomp], and is not kept. *)
Lemma kept_reserved (s : string) : reserved s = true -> kept s = false.
Proof.
  intros H. unfold kept.
  rewrite chomp_no_newline by now apply reserved_no_newline.
  rewrite H, andb_false_r, orb_false_r.
  destruct (html_like s) eqn:Hh; [|reflexivity].
  apply html_like_not_reserved in Hh. congruence.
Qed.

(** A bare identifier or numeral that is no reserved word is kept. *)
Lemma kept_grammar (s : string) :
  bare_identifier s || numeral s = true -> reserved s = false ->
  kept s = true.
Proof.
  intros Hg Hr. unfold kept.
  rewrite chomp_no_newline by now apply grammar_no_newline.
  rewrite Hg, Hr. apply orb_true_r.
Qed.

(** What is kept is no reserved word. *)
Lemma kept_not_reserved (s : string) : kept s = true -> reserved s = false.
Proof.
  intros K. destruct (reserved s) eqn:Hr; [|reflexivity].
  apply kept_reserved in Hr. congruence.
Qed.


Lemma quoted_inj (s1 s2 : string) : quoted s1 = quoted s2 -> s1 = s2.
Proof.
  unfold quoted, in_quotes. intros [= E%append_one_inj].
  apply (f_equal unescape) in E. now rewrite !unescape_escaped in E.
Qed.

Lemma ID_classes_not_colon : classes_in not_colon ID.
Proof.
  simpl. repeat split; try exact I; intros c H; unfold not_colon;
    (destruct (Ascii.eqb_spec c ":") as [-> | _];
     [discriminate H | reflexivity]).
Qed.

Lemma grammar_no_colon (s : string) :
  bare_identifier s || numeral s = true -> no_colon s = true.
Proof.
  intros H%lang_ID. exact (lang_chars not_colon ID s ID_classes_not_colon H).
Qed.

Lemma grammar_nonempty (s : string) :
  bare_identifier s || numeral s = true -> nonempty s = true.
Proof. intros (c & w & -> & _)%grammar_first. reflexivity. Qed.

Lemma nonempty_list_false {A : Type} (l : list A) :
  nonempty_list l = false -> l = [].
Proof. now destruct l. Qed.

Lemma nonempty_list_app_l {A : Type} (l1 l2 : list A) :
  nonempty_list l1 = true -> nonempty_list (l1 ++ l2) = true.
Proof. now destruct l1. Qed.

(** Joining three lists of tokens is joining what their three joins
    leave that is not empty. *)
Lemma join_three (sep : string) (l1 l2 l3 : list string) :
  Forall (fun s => nonempty s = true) l1 ->
  Forall (fun s => nonempty s = true) l2 ->
  Forall (fun s => nonempty s = true) l3 ->
  join sep (l1 ++ l2 ++ l3) =
  join sep (filter nonempty [join sep l1; join sep l2; join sep l3]).
Proof.
  intros F1 F2 F3. cbn [filter].
  rewrite !nonempty_join by assumption.
  destruct (nonempty_list l1) eqn:E1, (nonempty_list l2) eqn:E2,
    (nonempty_list l3) eqn:E3;
    try (apply nonempty_list_false in E1; subst l1);
    try (apply nonempty_list_false in E2; subst l2);
    try (apply nonempty_list_false in E3; subst l3);
    rewrite ?app_nil_r, ?app_nil_l; try reflexivity.
  - rewrite join_app, join_app; auto using nonempty_list_app_l.
  - now rewrite join_app.
  - now rewrite join_app.
  - now rewrite join_app.
Qed.

Lemma format_kwargs_nil (kwargs : option dict) :
  format_items (items_of_kwargs kwargs) = [] <-> kwargs_absent kwargs = true.
Proof.
  destruct kwargs as [d|]; simpl; [|tauto].
  rewrite format_items_nil. unfold mapping_items.
  now rewrite (forallb_perm _ _ _ (sort_items_perm d)).
Qed.

Lemma format_attributes_nil (attributes : option attributes_arg) :
  format_items (items_of_attributes attributes) = [] <->
  attributes_absent attributes = true.
Proof.
  destruct attributes as [[d | l]|]; simpl; [| |tauto].
  - rewrite format_items_nil. unfold mapping_items.
    now rewrite (forallb_perm _ _ _ (sort_items_perm d)).
  - apply format_items_nil.
Qed.

Lemma format_kwargs_drop (kwargs : option dict) :
  format_items (items_of_kwargs (drop_absent_kwargs kwargs)) =
  format_items (items_of_kwargs kwargs).
Proof.
  destruct kwargs as [d|]; simpl; [|reflexivity].
  apply format_mapping_items_filter.
Qed.

Lemma format_attributes_drop (attributes : option attributes_arg) :
  format_items (items_of_attributes (drop_absent_attributes attributes)) =
  format_items (items_of_attributes attributes).
Proof.
  destruct attributes as [[d | l]|]; simpl; [| |reflexivity].
  - apply format_mapping_items_filter.
  - apply format_items_filter.
Qed.

Lemma a_list_nonempty (label : option string) (kwargs : option dict)
    (attributes : option attributes_arg) :
  nonempty (a_list label kwargs attributes) =
  nonempty_list (label_token label
                 ++ format_items (items_of_kwargs kwargs)
                 ++ format_items (items_of_attributes attributes)).
Proof.
  rewrite a_list_tokens. apply nonempty_join.
  repeat (apply Forall_app; split);
    auto using label_token_nonempty, format_items_nonempty.
Qed.

End ExtraFacts.

(** * Properties of the code beyond the claims *)

Module Extras.
Import Re ReFacts PatternFacts Grammar QuoteFacts EdgeFacts SortFacts
  DollarFacts TextFacts TokenFacts CompassFacts ExtraFacts.

(** X1: what [quote] decides, for every string.  It returns the string
    as it is exactly when the string, without one final newline if it
    has one, is HTML-like or is a bare identifier or numeral that is no
    reserved word.  Any other string is returned changed: between two
    double quotes (the character of code 34), with its own double quotes
    escaped, so that between the two every double quote comes right after
    a backslash and undoing the escaping gives the string back. *)
Theorem quote_decides (s : string) :
  quote s =
    (if kept s then s
     else String "034"%char (escaped s ++ String "034"%char EmptyString))
  /\ (quote s = s <-> kept s = true)
  /\ guarded false (escaped s) = true
  /\ unescape (escaped s) = s.
Proof.
  assert (L : String.length (quoted s) <> String.length s).
  { unfold quoted. rewrite length_in_quotes, length_escaped. lia. }
  split; [|split; [|split]].
  - destruct (kept s) eqn:K; [now apply quote_kept|].
    now rewrite quote_not_kept.
  - split; [|apply quote_kept].
    destruct (kept s) eqn:K; [reflexivity|].
    rewrite quote_not_kept by assumption. intros E.
    now rewrite E in L.
  - apply guarded_escaped.
  - apply unescape_escaped.
Qed.

(** X2: [quote] is injective: two different strings never get the same
    token. *)
Theorem quote_injective (s1 s2 : string) :
  quote s1 = quote s2 -> s1 = s2.
Proof.
  intros E. destruct (kept s1) eqn:K1, (kept s2) eqn:K2.
  - now rewrite !quote_kept in E.
  - rewrite (quote_kept s1 K1), (quote_not_kept s2 K2) in E.
    destruct (kept_first s1 K1) as (c & w & -> & Hc).
    unfold quoted, in_quotes in E. injection E as -> _.
    now rewrite Ascii.eqb_refl in Hc.
  - rewrite (quote_not_kept s1 K1), (quote_kept s2 K2) in E.
    destruct (kept_first s2 K2) as (c & w & -> & Hc).
    unfold quoted, in_quotes in E. injection E as <- _.
    now rewrite Ascii.eqb_refl in Hc.
  - rewrite (quote_not_kept s1 K1), (quote_not_kept s2 K2) in E.
    now apply quoted_inj.
Qed.

Lemma quote_injective_witness :
  "a b" = "a b".
Proof. apply (quote_injective "a b" "a b"). reflexivity. Defined.

(** X3: the token that [quote] returns is never a reserved word, in any
    case of its letters, and is never empty. *)
Theorem quote_never_reserved (s : string) :
  reserved (quote s) = false /\ nonempty (quote s) = true.
Proof.
  split; [|apply nonempty_quote].
  destruct (kept s) eqn:K.
  - rewrite quote_kept by assumption. now apply kept_not_reserved.
  - rewrite quote_not_kept by assumption. reflexivity.
Qed.

(** X4: reading a token back, for every string.  The token [quote s]
    reads back as [s], except when [s] ends with a newline and is
    returned as it is: that token reads back as nothing. *)
Theorem reparse_quote_exact (s : string) :
  reparse (quote s) =
  if kept s && ends_with_newline s then None else Some s.
Proof.
  destruct (ends_with_newline s) eqn:Hn.
  - destruct (kept s) eqn:K; cbn [andb].
    + rewrite quote_kept by assumption.
      apply ends_with_newline_true in Hn.
      destruct (kept_first s K) as (c & w & E & Hc).
      assert (Hg : bare_identifier s || numeral s = false).
      { destruct (bare_identifier s || numeral s) eqn:Hg; [|reflexivity].
        now apply grammar_no_newline in Hg. }
      assert (Hh : html_like s = false).
      { destruct (html_like s) eqn:Hh; [|reflexivity].
        now apply html_like_no_newline in Hh. }
      apply orb_false_iff in Hg as [Hb Hm].
      unfold reparse. rewrite Hb, Hm, Hh. rewrite E in *. now rewrite Hc.
    + rewrite quote_not_kept by assumption. apply reparse_quoted.
  - rewrite andb_false_r. apply reparse_quote.
    now apply ends_with_newline_false.
Qed.



(** X6: a reserved word, in any case of its letters, is always returned
    between double quotes, itself unchanged between them. *)
Theorem quote_reserved_quoted (s : string) :
  reserved s = true ->
  quote s = String "034"%char (s ++ String "034"%char EmptyString).
Proof.
  intros H. rewrite quote_not_kept by now apply kept_reserved.
  unfold quoted. now rewrite escaped_plain by now apply reserved_plain.
Qed.

Lemma quote_reserved_quoted_witness :
  quote "Node" = String "034"%char ("Node" ++ String "034"%char EmptyString)
  /\ quote "STRICT" =
     String "034"%char ("STRICT" ++ String "034"%char EmptyString).
Proof.
  split.
  - apply (quote_reserved_quoted "Node"). reflexivity.
  - apply (quote_reserved_quoted "STRICT"). reflexivity.
Defined.



(** X9: with a label, the result of [a_list] starts with the token of
    the label, whatever [kwargs] and [attributes] hold. *)
Theorem a_list_label_first (label : string) (kwargs : option dict)
    (attributes : option attributes_arg) :
  String.prefix ("label=" ++ quote label)
    (a_list (Some label) kwargs attributes) = true.
Proof.
  rewrite a_list_tokens. cbn [label_token app].
  rewrite join_cons. apply prefix_app.
Qed.

(** X10: [attr_list] returns the empty string exactly when there is
    nothing to emit: no label, and no item with a value other than
    [None] in [kwargs] or in [attributes]. *)
Theorem attr_list_empty_iff (label : option string) (kwargs : option dict)
    (attributes : option attributes_arg) :
  attr_list label kwargs attributes = EmptyString <->
  label = None /\ kwargs_absent kwargs = true
  /\ attributes_absent attributes = true.
Proof.
  unfold attr_list.
  pose proof (a_list_nonempty label kwargs attributes) as N.
  destruct (nonempty (a_list label kwargs attributes)) eqn:E; cbn [negb].
  - split; [discriminate|].
    intros (-> & Hk%format_kwargs_nil & Ha%format_attributes_nil).
    rewrite Hk, Ha in N. discriminate N.
  - split; [intros _ | reflexivity].
    symmetry in N. apply nonempty_list_false in N.
    apply app_eq_nil in N as [N1 N2]. apply app_eq_nil in N2 as [N2 N3].
    apply format_kwargs_nil in N2. apply format_attributes_nil in N3.
    destruct label; [discriminate N1 | auto].
Qed.

(** X11: an item whose value is [None] counts for nothing: taking such
    items out of [kwargs] and out of [attributes] changes neither
    [a_list] nor [attr_list]. *)
Theorem a_list_drop_absent (label : option string) (kwargs : option dict)
    (attributes : option attributes_arg) :
  a_list label (drop_absent_kwargs kwargs) (drop_absent_attributes attributes)
  = a_list label kwargs attributes
  /\ attr_list label (drop_absent_kwargs kwargs)
       (drop_absent_attributes attributes)
     = attr_list label kwargs attributes.
Proof.
  assert (E : a_list label (drop_absent_kwargs kwargs)
                (drop_absent_attributes attributes)
              = a_list label kwargs attributes).
  { rewrite !a_list_tokens.
    now rewrite format_kwargs_drop, format_attributes_drop. }
  split; [exact E|]. unfold attr_list. now rewrite E.
Qed.

(** X12: [a_list] of a label, [kwargs] and [attributes] is made of the
    three results that [a_list] gives for each argument alone: those of
    the three that are not empty, in this order, with single spaces
    between them. *)
Theorem a_list_composes (label : option string) (kwargs : option dict)
    (attributes : option attributes_arg) :
  a_list label kwargs attributes =
  join " " (filter nonempty
              [a_list label None None;
               a_list None kwargs None;
               a_list None None attributes]).
Proof.
  rewrite !a_list_tokens. cbn [items_of_kwargs items_of_attributes
                               label_token format_items app].
  rewrite !app_nil_r.
  apply join_three;
    auto using label_token_nonempty, format_items_nonempty.
Qed.

(** X13: an endpoint whose node and port are bare identifiers or
    numerals, and no reserved words, is returned by [quote_edge] as it
    is, with or without a compass. *)
Theorem quote_edge_plain (node port compass : string) :
  bare_identifier node || numeral node = true -> reserved node = false ->
  bare_identifier port || numeral port = true -> reserved port = false ->
  nonempty compass = true ->
  quote_edge (node ++ ":" ++ port) = node ++ ":" ++ port
  /\ quote_edge (node ++ ":" ++ port ++ ":" ++ compass) =
     node ++ ":" ++ port ++ ":" ++ compass.
Proof.
  intros Gn Rn Gp Rp Hc.
  pose proof (quote_kept node (kept_grammar node Gn Rn)) as Qn.
  pose proof (quote_kept port (kept_grammar port Gp Rp)) as Qp.
  pose proof (grammar_no_colon node Gn) as Cn.
  pose proof (grammar_no_colon port Gp) as Cp.
  split.
  - unfold quote_edge.
    change (node ++ ":" ++ port) with (node ++ String ":" port).
    rewrite partition_sep by assumption.
    rewrite (grammar_nonempty port Gp), partition_no_sep by assumption.
    simpl. now rewrite Qn, Qp.
  - change (node ++ ":" ++ port ++ ":" ++ compass)
      with (node ++ String ":" (port ++ String ":" compass)).
    rewrite quote_edge_parts by assumption. now rewrite Qn, Qp, Hc.
Qed.

Lemma quote_edge_plain_witness :
  quote_edge "spam:eggs" = "spam:eggs"
  /\ quote_edge "spam:eggs:s" = "spam:eggs:s".
Proof. apply (quote_edge_plain "spam" "eggs" "s"); reflexivity. Defined.

End Extras.
